(** * Word counting by Map-Shuffle-Reduce ([task_2.py])

    A shallow embedding of the pure part of [task_2.py]: punctuation
    stripping, whitespace splitting, the optional vocabulary filter, the
    map / shuffle / reduce stages, the dictionary that [map_reduce] returns,
    the top-K selection and the bar data of [visualize_top_words], and the
    main block.

    Python values are modelled as follows.
    - [str] is a list of Unicode code points ([N]); string literals are
      written [lit "..."].
    - [int] is [Z].
    - [dict] (and [defaultdict]) is an association list in insertion order
      with pairwise distinct keys, which is what iteration over a Python
      dictionary observes.
    - [ThreadPoolExecutor.map f xs] yields [f x] for the elements of [xs]
      in the order of [xs]; the functions mapped here are pure, so the
      worker pool is modelled by [map]. *)

From Stdlib Require Import ZArith NArith Ascii String.
From stdpp Require Import gmap list sorting.

Local Open Scope Z_scope.

(** ** The Python runtime used by the program *)

Module Py.

Abbreviation char := N (only parsing).
Abbreviation str := (list N) (only parsing).

(** A literal of the source text, as a Python string. *)
Fixpoint lit (s : string) : str :=
  match s with
  | EmptyString => []
  | String a s' => N_of_ascii a :: lit s'
  end.

(** [str.isspace] on one code point: the characters on which
    [str.split()] separates words. *)
Definition isspace (c : char) : bool :=
  ((9 <=? c) && (c <=? 13) || (28 <=? c) && (c <=? 32)
   || (c =? 133) || (c =? 160) || (c =? 5760)
   || (8192 <=? c) && (c <=? 8202)
   || (c =? 8232) || (c =? 8233) || (c =? 8239) || (c =? 8287)
   || (c =? 12288))%N.

(** [string.punctuation]: the 32 ASCII punctuation characters.  Code
    point 34 is the double quote. *)
Definition punctuation : str :=
  lit "!" ++ [34%N] ++ lit "#$%&'()*+,-./:;<=>?@[\]^_`{|}~".

(** [str.split()] without arguments: words are the maximal runs of
    characters that are not white space; no empty word is produced.
    [cur] holds the characters of the word being read, last one first. *)
Fixpoint split_from (cur : str) (s : str) : list str :=
  match s with
  | [] => match cur with [] => [] | _ => [rev cur] end
  | c :: s' =>
      if isspace c then
        match cur with
        | [] => split_from [] s'
        | _ => rev cur :: split_from [] s'
        end
      else split_from (c :: cur) s'
  end.

Definition split (s : str) : list str := split_from [] s.

(** *** Dictionaries *)

Section Dict.
Context {K V : Type} `{EqDecision K}.

Definition dict : Type := list (K * V).

(** [d.get(k)]: [None] when [k] is not a key. *)
Fixpoint dict_get (k : K) (d : dict) : option V :=
  match d with
  | [] => None
  | (k', v) :: d' => if decide (k = k') then Some v else dict_get k d'
  end.

(** [d[k] = v]: an existing key keeps its position, a new key goes
    last. *)
Fixpoint dict_set (k : K) (v : V) (d : dict) : dict :=
  match d with
  | [] => [(k, v)]
  | (k', v') :: d' =>
      if decide (k = k') then (k, v) :: d' else (k', v') :: dict_set k v d'
  end.

(** [dict(pairs)]: the pairs are stored one after the other. *)
Definition dict_of_items (l : list (K * V)) : dict :=
  fold_left (fun d kv => dict_set kv.1 kv.2 d) l [].

Definition items (d : dict) : list (K * V) := d.
Definition keys (d : dict) : list K := map fst d.
Definition values (d : dict) : list V := map snd d.
End Dict.

Arguments dict : clear implicits.

(** [str.maketrans(x, y, z)]: the characters of [x] are mapped to those
    of [y] at the same position, then every character of [z] is mapped
    to [None].  (Python raises [ValueError] when [x] and [y] differ in
    length; the program passes two empty strings.) *)
Definition maketrans (x y z : str) : dict char (option char) :=
  fold_left (fun d c => dict_set c None d) z
    (fold_left (fun d ab => dict_set ab.1 (Some ab.2) d) (zip x y) []).

(** [s.translate(table)]: a character without entry is kept, one mapped
    to [None] is deleted, one mapped to a character is replaced. *)
Definition translate (table : dict char (option char)) (s : str) : str :=
  flat_map (fun c =>
              match dict_get c table with
              | None => [c]
              | Some None => []
              | Some (Some c') => [c']
              end) s.

(** [sum(l)] *)
Definition sum (l : list Z) : Z := fold_left Z.add l 0.

(** [sorted(l, key=key, reverse=True)].  Python's sort is stable, also
    with [reverse=True]: elements with equal keys keep the order they
    have in [l].  The result of a stable sort does not depend on the
    algorithm; this one inserts each element before the first element
    whose key is not larger. *)
Fixpoint insert_desc {A} (key : A -> Z) (x : A) (l : list A) : list A :=
  match l with
  | [] => [x]
  | y :: l' => if key x <? key y then y :: insert_desc key x l' else x :: l
  end.

Definition sorted_reverse {A} (key : A -> Z) (l : list A) : list A :=
  foldr (insert_desc key) [] l.

(** [y] may follow [x] in a list sorted by decreasing key. *)
Definition desc {A} (key : A -> Z) (x y : A) : Prop := key y <= key x.

(** The slice [l[:k]]: the first [k] elements, or all but the last [-k]
    when [k] is negative. *)
Definition slice_to {A} (k : Z) (l : list A) : list A :=
  if 0 <=? k then take (Z.to_nat k) l
  else take (Z.to_nat (Z.of_nat (length l) + k)) l.

(** [ThreadPoolExecutor.map]: results come in the order of the inputs. *)
Definition executor_map {A B} (f : A -> B) (l : list A) : list B := map f l.

End Py.

(** ** The program *)

Module Task2.
Import Py.

Definition remove_punctuation (text : str) : str :=
  translate (maketrans [] [] punctuation) text.

Definition map_function (word : str) : str * Z := (word, 1).

(** [shuffled = defaultdict(list)]; [shuffled[key].append(value)] for
    every pair; the result is [shuffled.items()]. *)
Definition shuffle_step (shuffled : dict str (list Z)) (kv : str * Z)
  : dict str (list Z) :=
  dict_set kv.1 (default [] (dict_get kv.1 shuffled) ++ [kv.2]) shuffled.

Definition shuffle_function (mapped_values : list (str * Z))
  : list (str * list Z) :=
  items (fold_left shuffle_step mapped_values []).

Definition reduce_function (key_values : str * list Z) : str * Z :=
  (key_values.1, sum key_values.2).

(** [if search_words:] holds for a list that is neither [None] nor empty;
    [word in search_words] compares strings with [==]. *)
Definition map_reduce (text : str) (search_words : option (list str))
  : dict str Z :=
  let text := remove_punctuation text in
  let words := split text in
  let words :=
    match search_words with
    | Some ((_ :: _) as search_words) =>
        filter (fun word => word ∈ search_words) words
    | _ => words
    end in
  let mapped_values := executor_map map_function words in
  let shuffled_values := shuffle_function mapped_values in
  let reduced_values := executor_map reduce_function shuffled_values in
  dict_of_items reduced_values.

(** *** The stages of [map_reduce], named for the statements *)

(** The value of [words] when mapping starts (lines 109 to 113): the
    filtered token sequence. *)
Definition tokenize (text : str) (search_words : option (list str))
  : list str :=
  let text := remove_punctuation text in
  let words := split text in
  match search_words with
  | Some ((_ :: _) as search_words) =>
      filter (fun word => word ∈ search_words) words
  | _ => words
  end.

(** Lines 122 to 126: parallel reduction and [dict(reduced_values)]. *)
Definition reduce_stage (shuffled_values : list (str * list Z))
  : dict str Z :=
  dict_of_items (executor_map reduce_function shuffled_values).

(** Lines 115 to 126: what [map_reduce] does with [words]. *)
Definition count_words (words : list str) : dict str Z :=
  let mapped_values := executor_map map_function words in
  let shuffled_values := shuffle_function mapped_values in
  reduce_stage shuffled_values.

(** The selection made by [visualize_top_words] before plotting. *)
Definition sorted_frequencies (word_frequencies : dict str Z)
  : list (str * Z) :=
  sorted_reverse snd (items word_frequencies).

Definition top_entries (word_frequencies : dict str Z) (num_top_words : Z)
  : list (str * Z) :=
  slice_to num_top_words (sorted_frequencies word_frequencies).

Definition top_words (word_frequencies : dict str Z) (num_top_words : Z)
  : list str :=
  map fst (top_entries word_frequencies num_top_words).

Definition top_frequencies (word_frequencies : dict str Z)
  (num_top_words : Z) : list Z :=
  map snd (top_entries word_frequencies num_top_words).

(** *** Views of a table used in the statements *)

(** The table as a finite map: equality of Python dictionaries. *)
Definition as_map (d : dict str Z) : gmap str Z := list_to_map d.

Definition key_set (d : dict str Z) : gset str := list_to_set (keys d).

(** [sum(d.values())] *)
Definition total (d : dict str Z) : Z := sum (values d).

(** The values paired with [k] in a list of pairs, in their order. *)
Definition values_of (k : str) (l : list (str * Z)) : list Z :=
  map snd (filter (fun kv => kv.1 = k) l).

(** The sum of all the counts held by a list of grouped entries. *)
Definition grouped_total (g : list (str * list Z)) : Z :=
  sum (map (fun kv => sum kv.2) g).

(** The number of occurrences of [w] in [l], under equality of strings. *)
Definition occurrences (w : str) (l : list str) : Z :=
  Z.of_nat (length (filter (fun x => x = w) l)).

(** *** Plotting and the main block *)

(** What [visualize_top_words] hands to [plt.barh] (line 150): the labels
    [top_words] and the widths [top_frequencies[::-1]].  The calls that
    set up and show the figure are left out. *)
Definition visualize_top_words (word_frequencies : dict str Z)
  (num_top_words : Z) : list str * list Z :=
  (top_words word_frequencies num_top_words,
   reverse (top_frequencies word_frequencies num_top_words)).

(** What a run of the script shows: a chart or a printed message. *)
Inductive outcome : Type :=
  | Chart (y : list str) (width : list Z)
  | Printed (message : string).

(** The block under [if __name__ == '__main__':], as a function of what
    [get_text(URL)] returned.  [if some_text:] holds for a string that is
    neither [None] nor empty. *)
Definition main (some_text : option str) : outcome :=
  match some_text with
  | Some ((_ :: _) as some_text) =>
      let word_occurrences := map_reduce some_text None in
      let bars := visualize_top_words word_occurrences 20 in
      Chart bars.1 bars.2
  | _ => Printed "Error: Unable to fetch the input text."
  end.

(** *** Further views used in the statements *)

(** The elements of [l] in the order of their first occurrence. *)
Fixpoint first_seen (l : list str) : list str :=
  match l with
  | [] => []
  | x :: l' => x :: filter (fun y => y <> x) (first_seen l')
  end.

(** The count a table holds for [w], 0 when [w] is not a key. *)
Definition count_of (w : str) (d : dict str Z) : Z :=
  default 0 (dict_get w d).

End Task2.

Import Py Task2.


(** ** The model on concrete inputs *)

Example isspace_ascii :
  map isspace [9; 10; 13; 14; 27; 28; 31; 32; 33; 133; 160; 8203]%N =
  [true; true; true; false; false; true; true; true; false; true; true; false].
Proof. reflexivity. Qed.

Example split_runs :
  split (lit "  to be   or not ") = [lit "to"; lit "be"; lit "or"; lit "not"].
Proof. reflexivity. Qed.

Example split_blank : split (lit "   ") = [].
Proof. reflexivity. Qed.

Example remove_punctuation_quotes :
  remove_punctuation (lit "'tis" ++ [34%N] ++ lit "so" ++ [34%N] ++ lit "-- yes.")
  = lit "tisso yes".
Proof. reflexivity. Qed.

Example shuffle_groups_in_first_seen_order :
  shuffle_function [(lit "b", 1); (lit "a", 1); (lit "b", 1)] =
  [(lit "b", [1; 1]); (lit "a", [1])].
Proof. reflexivity. Qed.

Example map_reduce_empty_text : map_reduce (lit "") None = [].
Proof. reflexivity. Qed.

Example map_reduce_vocabulary :
  map_reduce (lit "the quick fox jumps") (Some [lit "fox"]) = [(lit "fox", 1)].
Proof. reflexivity. Qed.

Example top_entries_ties_keep_order :
  top_entries [(lit "b", 1); (lit "a", 2); (lit "c", 2); (lit "d", 3)] 3 =
  [(lit "d", 3); (lit "a", 2); (lit "c", 2)].
Proof. reflexivity. Qed.

Example top_entries_negative :
  top_entries [(lit "b", 1); (lit "a", 2); (lit "c", 2); (lit "d", 3)] (-1) =
  [(lit "d", 3); (lit "a", 2); (lit "c", 2)].
Proof. reflexivity. Qed.

(** ** Dictionaries: reading after writing, keys, insertion order *)

Section DictFacts.
Context {K V : Type} `{EqDecision K}.
Implicit Types (d : dict K V) (k : K) (v : V).

Lemma dict_get_set k k' v d :
  dict_get k (dict_set k' v d) =
  if decide (k = k') then Some v else dict_get k d.
Proof.
  induction d as [|[k0 v0] d IH]; simpl.
  - by repeat case_decide.
  - destruct (decide (k' = k0)) as [->|Hne]; simpl.
    + by repeat case_decide.
    + rewrite IH. repeat case_decide; congruence.
Qed.

Lemma dict_get_elem_of k v d : dict_get k d = Some v -> (k, v) ∈ d.
Proof.
  induction d as [|[k0 v0] d IH]; simpl; [done|].
  case_decide; intros; simplify_eq; [left | right; auto].
Qed.

Lemma elem_of_dict_get k v d :
  NoDup (keys d) -> (k, v) ∈ d -> dict_get k d = Some v.
Proof.
  unfold keys. induction d as [|[k0 v0] d IH]; simpl.
  - intros _ Hin. by apply elem_of_nil in Hin.
  - rewrite NoDup_cons, elem_of_cons. intros [Hk0 Hnd] [Heq|Hin].
    + simplify_eq. by rewrite decide_True.
    + case_decide as Hk; [|auto]. subst k0. destruct Hk0.
      apply list_elem_of_fmap. by exists (k, v).
Qed.

Lemma dict_set_fresh k v d : k ∉ keys d -> dict_set k v d = d ++ [(k, v)].
Proof.
  unfold keys. induction d as [|[k0 v0] d IH]; simpl; [done|].
  rewrite not_elem_of_cons. intros [Hne Hk].
  rewrite decide_False by done. by rewrite IH.
Qed.

Lemma keys_dict_set k v d :
  keys (dict_set k v d) =
  if decide (k ∈ keys d) then keys d else keys d ++ [k].
Proof.
  unfold keys. induction d as [|[k0 v0] d IH]; simpl.
  - done.
  - destruct (decide (k = k0)) as [->|Hne]; simpl.
    + rewrite decide_True; [done | left].
    + rewrite IH.
      destruct (decide (k ∈ map fst d)) as [Hin|Hin];
        destruct (decide (k ∈ k0 :: map fst d)) as [Hin'|Hin']; try done.
      * destruct Hin'. by right.
      * apply elem_of_cons in Hin' as [?|?]; done.
Qed.

Lemma NoDup_keys_dict_set k v d :
  NoDup (keys d) -> NoDup (keys (dict_set k v d)).
Proof.
  intros Hnd. rewrite keys_dict_set. case_decide as Hin; [done|].
  apply NoDup_app. split_and!; [done | | apply NoDup_singleton].
  intros x Hx Hx'. apply list_elem_of_singleton in Hx'. by subst.
Qed.

Lemma elem_of_keys_dict_set k k' v d :
  k ∈ keys (dict_set k' v d) <-> k = k' \/ k ∈ keys d.
Proof.
  rewrite keys_dict_set. case_decide as Hin.
  - split; [tauto | by intros [->|?]].
  - rewrite elem_of_app, list_elem_of_singleton. tauto.
Qed.

(** Storing pairs with distinct keys keeps them as they are, in order. *)
Lemma fold_dict_set_fresh (l : list (K * V)) d :
  NoDup (keys d ++ map fst l) ->
  fold_left (fun d kv => dict_set kv.1 kv.2 d) l d = d ++ l.
Proof.
  revert d. induction l as [|[k v] l IH]; intros d Hnd; simpl.
  - by rewrite app_nil_r.
  - simpl in Hnd. rewrite dict_set_fresh.
    + rewrite IH.
      * by rewrite <- app_assoc.
      * unfold keys in *. rewrite fmap_app. simpl.
        by rewrite <- app_assoc.
    + apply NoDup_app in Hnd as (_ & Hdis & _).
      intros Hin. apply (Hdis k Hin). left.
Qed.

Lemma dict_of_items_NoDup (l : list (K * V)) :
  NoDup (map fst l) -> dict_of_items l = l.
Proof. intros Hnd. unfold dict_of_items. by rewrite fold_dict_set_fresh. Qed.

Lemma dict_get_map_values {W} (f : V -> W) k d :
  dict_get k (map (fun kv => (kv.1, f kv.2)) d) = f <$> dict_get k d.
Proof.
  induction d as [|[k0 v0] d IH]; simpl; [done|]. by case_decide.
Qed.

Lemma keys_map_values {W} (f : V -> W) d :
  keys (map (fun kv => (kv.1, f kv.2)) d) = keys d.
Proof. unfold keys. induction d as [|[k0 v0] d IH]; simpl; congruence. Qed.
End DictFacts.

Lemma as_map_lookup (d : dict str Z) (k : str) : as_map d !! k = dict_get k d.
Proof.
  unfold as_map. induction d as [|[k0 v0] d IH]; simpl; [done|].
  rewrite lookup_insert. repeat case_decide; congruence.
Qed.

(** ** Sums *)

Lemma fold_add_acc (l : list Z) (a : Z) :
  fold_left Z.add l a = a + fold_left Z.add l 0.
Proof.
  revert a. induction l as [|x l IH]; intros a; simpl; [lia|].
  rewrite (IH (a + x)), (IH (0 + x)). lia.
Qed.

Lemma sum_cons (x : Z) (l : list Z) : sum (x :: l) = x + sum l.
Proof. unfold sum. simpl. apply fold_add_acc. Qed.

Lemma sum_singleton (x : Z) : sum [x] = x.
Proof. unfold sum. simpl. lia. Qed.

Lemma sum_app (l1 l2 : list Z) : sum (l1 ++ l2) = sum l1 + sum l2.
Proof.
  induction l1 as [|x l1 IH]; simpl; [done|].
  rewrite !sum_cons, IH. lia.
Qed.

Lemma sum_Permutation (l1 l2 : list Z) : l1 ≡ₚ l2 -> sum l1 = sum l2.
Proof.
  induction 1 as [|x l1 l2 _ IH|x y l|l1 l2 l3 _ IH1 _ IH2];
    rewrite ?sum_cons; try lia; congruence.
Qed.

Lemma sum_ones (l : list Z) :
  Forall (fun v => v = 1) l -> sum l = Z.of_nat (length l).
Proof.
  induction 1 as [|x l -> _ IH]; [done|].
  rewrite sum_cons, IH. simpl length. lia.
Qed.

(** ** The shuffle stage *)

Section Shuffle.
Implicit Types (d : dict str (list Z)) (l : list (str * Z)) (k : str).

Lemma values_of_cons k kv l :
  values_of k (kv :: l) =
  if decide (kv.1 = k) then kv.2 :: values_of k l else values_of k l.
Proof. unfold values_of. rewrite filter_cons. by case_decide. Qed.

Lemma values_of_nil_iff k l : values_of k l = [] <-> k ∉ map fst l.
Proof.
  induction l as [|[k0 v0] l IH]; simpl.
  - split; [intros _; apply not_elem_of_nil | done].
  - rewrite values_of_cons, not_elem_of_cons. simpl.
    case_decide as Hk.
    + split; [done | intros [? _]; congruence].
    + rewrite IH. intuition congruence.
Qed.

(** What a key holds once the pairs of [l] have been added to [d]. *)
Lemma shuffle_fold_get k l d :
  dict_get k (fold_left shuffle_step l d) =
  match values_of k l with
  | [] => dict_get k d
  | vs => Some (default [] (dict_get k d) ++ vs)
  end.
Proof.
  revert d. induction l as [|[k0 v0] l IH]; intros d; [done|].
  simpl fold_left. rewrite IH, values_of_cons. unfold shuffle_step. simpl.
  rewrite dict_get_set.
  destruct (decide (k0 = k)) as [->|Hne].
  - rewrite decide_True by done. simpl.
    destruct (values_of k l); [done|]. by rewrite <- app_assoc.
  - by rewrite decide_False by done.
Qed.

Lemma shuffle_fold_NoDup l d :
  NoDup (keys d) -> NoDup (keys (fold_left shuffle_step l d)).
Proof.
  revert d. induction l as [|kv l IH]; intros d Hnd; [done|].
  simpl. apply IH. by apply NoDup_keys_dict_set.
Qed.

Lemma shuffle_fold_keys k l d :
  k ∈ keys (fold_left shuffle_step l d) <-> k ∈ keys d \/ k ∈ map fst l.
Proof.
  revert d. induction l as [|[k0 v0] l IH]; intros d; simpl.
  - rewrite elem_of_nil. tauto.
  - rewrite IH. unfold shuffle_step. simpl.
    rewrite elem_of_keys_dict_set, elem_of_cons. intuition congruence.
Qed.

Lemma grouped_total_set k (v : Z) d :
  grouped_total (dict_set k (default [] (dict_get k d) ++ [v]) d) =
  grouped_total d + v.
Proof.
  unfold grouped_total. induction d as [|[k0 vs0] d IH]; simpl.
  - rewrite !sum_singleton. unfold sum. simpl. lia.
  - destruct (decide (k = k0)) as [->|Hne]; simpl.
    + rewrite !sum_cons, sum_app, sum_singleton. lia.
    + rewrite !sum_cons, IH. lia.
Qed.

Lemma shuffle_fold_total l d :
  grouped_total (fold_left shuffle_step l d) =
  grouped_total d + sum (map snd l).
Proof.
  revert d. induction l as [|[k0 v0] l IH]; intros d; simpl.
  - change (sum []) with 0. lia.
  - rewrite IH. unfold shuffle_step at 1. simpl.
    rewrite grouped_total_set, sum_cons. lia.
Qed.

Lemma shuffle_get k l :
  dict_get k (shuffle_function l) =
  match values_of k l with [] => None | vs => Some vs end.
Proof. unfold shuffle_function, items. by rewrite shuffle_fold_get. Qed.

Lemma shuffle_NoDup l : NoDup (keys (shuffle_function l)).
Proof. apply shuffle_fold_NoDup. constructor. Qed.

Lemma shuffle_keys k l : k ∈ keys (shuffle_function l) <-> k ∈ map fst l.
Proof.
  unfold shuffle_function, items. rewrite shuffle_fold_keys.
  simpl. rewrite elem_of_nil. tauto.
Qed.

Lemma shuffle_total l : grouped_total (shuffle_function l) = sum (map snd l).
Proof. unfold shuffle_function, items. by rewrite shuffle_fold_total. Qed.
End Shuffle.

(** ** The reduce stage *)

Lemma reduce_stage_NoDup (g : list (str * list Z)) :
  NoDup (keys g) -> reduce_stage g = map reduce_function g.
Proof.
  intros Hnd. unfold reduce_stage, executor_map.
  apply dict_of_items_NoDup.
  change (NoDup (keys (map (fun kv => (kv.1, sum kv.2)) g))).
  by rewrite keys_map_values.
Qed.

Lemma reduce_keys (g : list (str * list Z)) :
  keys (map reduce_function g) = keys g.
Proof. apply (keys_map_values sum). Qed.

Lemma reduce_get (k : str) (g : list (str * list Z)) :
  dict_get k (map reduce_function g) = sum <$> dict_get k g.
Proof. apply (dict_get_map_values sum). Qed.

Lemma reduce_total (g : list (str * list Z)) :
  total (map reduce_function g) = grouped_total g.
Proof.
  unfold total, grouped_total, values. f_equal.
  induction g as [|[k vs] g IH]; simpl; congruence.
Qed.

(** ** Counting a list of words *)

Section CountWords.
Implicit Types (words : list str) (w : str).

Lemma count_words_eq words :
  count_words words =
  map reduce_function (shuffle_function (map map_function words)).
Proof. apply reduce_stage_NoDup, shuffle_NoDup. Qed.

Lemma map_function_fst words : map fst (map map_function words) = words.
Proof. induction words as [|x l IH]; simpl; congruence. Qed.

Lemma map_function_snd words :
  Forall (fun v => v = 1) (map snd (map map_function words)).
Proof. induction words; simpl; by constructor. Qed.

Lemma values_of_mapped w words :
  values_of w (map map_function words) =
  map (fun _ => 1) (filter (fun x => x = w) words).
Proof.
  induction words as [|x l IH]; [done|].
  simpl map. rewrite values_of_cons, filter_cons. simpl.
  case_decide; simpl; congruence.
Qed.

Lemma sum_values_of_mapped w words :
  sum (values_of w (map map_function words)) = occurrences w words.
Proof.
  rewrite values_of_mapped, sum_ones.
  - by rewrite length_map.
  - apply Forall_forall. intros v Hv.
    apply list_elem_of_fmap in Hv as (? & -> & _). done.
Qed.

Lemma occurrences_pos w words : w ∈ words -> 1 <= occurrences w words.
Proof.
  intros Hin. unfold occurrences.
  assert (Hw : w ∈ filter (fun x => x = w) words)
    by by apply list_elem_of_filter.
  destruct (filter _ words); [by apply elem_of_nil in Hw | simpl; lia].
Qed.

Lemma count_words_NoDup words : NoDup (keys (count_words words)).
Proof. rewrite count_words_eq, reduce_keys. apply shuffle_NoDup. Qed.

Lemma count_words_keys w words : w ∈ keys (count_words words) <-> w ∈ words.
Proof.
  by rewrite count_words_eq, reduce_keys, shuffle_keys, map_function_fst.
Qed.

(** Every word is stored with the number of its occurrences, and nothing
    else is stored. *)
Lemma count_words_get w words :
  dict_get w (count_words words) =
  if decide (w ∈ words) then Some (occurrences w words) else None.
Proof.
  rewrite count_words_eq, reduce_get, shuffle_get.
  pose proof (values_of_nil_iff w (map map_function words)) as Hnil.
  rewrite map_function_fst in Hnil.
  pose proof (sum_values_of_mapped w words) as Hsum.
  destruct (values_of w (map map_function words)) as [|v vs].
  - rewrite decide_False; [done | by apply Hnil].
  - rewrite decide_True; [simpl; by rewrite Hsum|].
    destruct (decide (w ∈ words)) as [|Hn]; [done|].
    by apply Hnil in Hn.
Qed.

Lemma count_words_total words :
  total (count_words words) = Z.of_nat (length words).
Proof.
  rewrite count_words_eq, reduce_total, shuffle_total.
  rewrite sum_ones by apply map_function_snd.
  by rewrite !length_map.
Qed.
End CountWords.

(** ** Properties of [map_reduce] *)

Lemma map_reduce_stages (text : str) (search_words : option (list str)) :
  map_reduce text search_words = count_words (tokenize text search_words).
Proof. reflexivity. Qed.

(** C1 (count conservation).  For every text and every value of the
    optional vocabulary, the counts of the table returned by [map_reduce]
    add up to the number of words that are left after punctuation
    stripping, splitting and the vocabulary filter (which the program
    applies when the vocabulary is a list that is not empty). *)
Theorem count_conservation (text : str) (search_words : option (list str)) :
  total (map_reduce text search_words) =
  Z.of_nat (length (tokenize text search_words)).
Proof. rewrite map_reduce_stages. apply count_words_total. Qed.

(** C2 (key completeness).  Every word of the filtered sequence is a key
    of the table with a count of at least 1, and every key of the table
    occurs in the filtered sequence. *)
Theorem key_completeness (text : str) (search_words : option (list str)) :
  (forall w, w ∈ tokenize text search_words ->
     exists n, dict_get w (map_reduce text search_words) = Some n /\ 1 <= n) /\
  (forall k, k ∈ keys (map_reduce text search_words) ->
     k ∈ tokenize text search_words).
Proof.
  rewrite map_reduce_stages. split.
  - intros w Hw. exists (occurrences w (tokenize text search_words)).
    rewrite count_words_get, decide_True by done.
    split; [done | by apply occurrences_pos].
  - intros k. by rewrite count_words_keys.
Qed.

Lemma key_completeness_witness :
  exists n, dict_get (lit "a") (map_reduce (lit "a b a") None) = Some n
            /\ 1 <= n.
Proof.
  apply (proj1 (key_completeness (lit "a b a") None)).
  vm_compute. left.
Defined.

(** C10.  An empty list of search words is treated like an absent one:
    the table is the same, and every word of the text is one of its keys,
    so nothing has been filtered out. *)
Theorem empty_search_words_is_no_filter (text : str) :
  map_reduce text (Some []) = map_reduce text None /\
  (forall w, w ∈ split (remove_punctuation text) ->
     w ∈ keys (map_reduce text (Some []))).
Proof.
  split; [reflexivity|].
  intros w Hw. rewrite map_reduce_stages. by apply count_words_keys.
Qed.

Lemma empty_search_words_is_no_filter_witness :
  lit "fox" ∈ keys (map_reduce (lit "the fox") (Some [])).
Proof.
  apply (proj2 (empty_search_words_is_no_filter (lit "the fox"))).
  vm_compute. right. left.
Defined.

(** ** Order independence *)

Lemma dict_get_Permutation {V} (k : str) (d d' : dict str V) :
  NoDup (keys d) -> d ≡ₚ d' -> dict_get k d = dict_get k d'.
Proof.
  intros Hnd Hp.
  assert (Hnd' : NoDup (keys d')).
  { unfold keys in *. by rewrite <- Hp. }
  destruct (dict_get k d) as [v|] eqn:Hd.
  - symmetry. apply elem_of_dict_get; [done|].
    rewrite <- Hp. by apply dict_get_elem_of.
  - destruct (dict_get k d') as [v'|] eqn:Hd'; [|done].
    apply dict_get_elem_of in Hd'. rewrite <- Hp in Hd'.
    apply elem_of_dict_get in Hd'; [congruence | done].
Qed.

Lemma values_of_Permutation (k : str) (l l' : list (str * Z)) :
  l ≡ₚ l' -> values_of k l ≡ₚ values_of k l'.
Proof. intros Hp. unfold values_of. by rewrite Hp. Qed.

Lemma reduce_shuffle_Permutation (k : str) (l l' : list (str * Z)) :
  l ≡ₚ l' ->
  sum <$> dict_get k (shuffle_function l) =
  sum <$> dict_get k (shuffle_function l').
Proof.
  intros Hp. rewrite !shuffle_get.
  pose proof (values_of_Permutation k l l' Hp) as Hv.
  destruct (values_of k l) as [|v vs].
  - apply Permutation_nil_l in Hv. by rewrite <- Hv.
  - destruct (values_of k l') as [|v' vs'].
    + by apply Permutation_nil_r in Hv.
    + simpl. f_equal. by apply sum_Permutation.
Qed.

(** C4 (order independence).  Feeding [shuffle_function] a permutation
    [l'] of the mapped pairs [l], and then feeding the reduce step a
    permutation [g'] of the grouped entries, gives the same table, as a
    mapping from word to count, as running both stages in order. *)
Theorem order_independence
  (l l' : list (str * Z)) (g' : list (str * list Z)) :
  l ≡ₚ l' ->
  shuffle_function l' ≡ₚ g' ->
  as_map (reduce_stage g') = as_map (reduce_stage (shuffle_function l)).
Proof.
  intros Hl Hg. apply map_eq. intros k. rewrite !as_map_lookup.
  assert (Hnd : NoDup (keys g')).
  { unfold keys. rewrite <- Hg. apply shuffle_NoDup. }
  rewrite (reduce_stage_NoDup g') by done.
  rewrite reduce_stage_NoDup by apply shuffle_NoDup.
  rewrite !reduce_get.
  rewrite <- (dict_get_Permutation k _ _ (shuffle_NoDup l') Hg).
  symmetry. by apply reduce_shuffle_Permutation.
Qed.

Lemma order_independence_witness :
  as_map (reduce_stage [(lit "a", [1; 1]); (lit "b", [1])]) =
  as_map (reduce_stage
            (shuffle_function [(lit "a", 1); (lit "b", 1); (lit "a", 1)])).
Proof.
  apply (order_independence
           [(lit "a", 1); (lit "b", 1); (lit "a", 1)]
           [(lit "b", 1); (lit "a", 1); (lit "a", 1)]).
  - apply perm_swap.
  - vm_compute. apply perm_swap.
Defined.

(** ** Splitting into words *)

Lemma split_from_nonempty (cur s : str) :
  Forall (fun w => w <> []) (split_from cur s).
Proof.
  assert (Hrev : forall (c : char) (cur' : str), rev (c :: cur') <> []).
  { intros c cur' Heq. apply (f_equal length) in Heq.
    rewrite length_rev in Heq. discriminate. }
  revert cur. induction s as [|c s IH]; intros cur; simpl.
  - destruct cur; repeat constructor. apply Hrev.
  - destruct (isspace c); [|apply IH].
    destruct cur; [apply IH|]. constructor; [apply Hrev | apply IH].
Qed.

Lemma split_nonempty (s : str) (w : str) : w ∈ split s -> w <> [].
Proof.
  intros Hw. pose proof (split_from_nonempty [] s) as Hall.
  rewrite Forall_forall in Hall. by apply Hall.
Qed.

(** The characters of a word are characters of the string that was split. *)
Lemma split_from_chars (cur s : str) (w : str) (c : char) :
  w ∈ split_from cur s -> c ∈ w -> c ∈ cur \/ c ∈ s.
Proof.
  revert cur. induction s as [|c0 s IH]; intros cur; simpl.
  - destruct cur as [|c1 cur]; [by intros ?%elem_of_nil|].
    intros ->%list_elem_of_singleton Hc. left.
    apply list_elem_of_In. apply list_elem_of_In, in_rev in Hc. done.
  - destruct (isspace c0).
    + destruct cur as [|c1 cur].
      * intros Hw Hc. destruct (IH _ Hw Hc) as [?|?]; [by left | right; by right].
      * rewrite elem_of_cons. intros [->|Hw] Hc.
        -- left. apply list_elem_of_In. by apply list_elem_of_In, in_rev in Hc.
        -- destruct (IH _ Hw Hc) as [Hn|?]; [|right; by right].
           by apply elem_of_nil in Hn.
    + intros Hw Hc. destruct (IH _ Hw Hc) as [Hin|?]; [|right; by right].
      apply elem_of_cons in Hin as [->|?]; [right; left | by left].
Qed.

Lemma split_chars (s w : str) (c : char) : w ∈ split s -> c ∈ w -> c ∈ s.
Proof.
  intros Hw Hc. destruct (split_from_chars [] s w c Hw Hc) as [Hn|?]; [|done].
  by apply elem_of_nil in Hn.
Qed.

(** ** Punctuation stripping *)

Lemma deletion_table_get (c : char) (z : str) (d : dict char (option char)) :
  dict_get c (fold_left (fun d c => dict_set c None d) z d) =
  if decide (c ∈ z) then Some None else dict_get c d.
Proof.
  revert d. induction z as [|c0 z IH]; intros d; simpl; [done|].
  rewrite IH, dict_get_set.
  destruct (decide (c = c0)) as [->|Hne].
  - rewrite (decide_True (P := c0 ∈ c0 :: z)) by left. by case_decide.
  - repeat case_decide; try done; exfalso.
    + match goal with H : c ∉ c0 :: z |- _ => apply H end. by right.
    + match goal with H : c ∈ c0 :: z |- _ =>
        apply elem_of_cons in H as [?|?] end; done.
Qed.

Lemma translate_deletion (z text : str) :
  translate (maketrans [] [] z) text = filter (fun c => c ∉ z) text.
Proof.
  unfold translate.
  induction text as [|c text IH]; [done|].
  cbn [flat_map]. rewrite IH, filter_cons.
  unfold maketrans at 1. rewrite deletion_table_get.
  destruct (decide (c ∈ z)) as [Hin|Hin].
  - by rewrite decide_False by tauto.
  - by rewrite decide_True by done.
Qed.

Lemma remove_punctuation_filter (text : str) :
  remove_punctuation text = filter (fun c => c ∉ punctuation) text.
Proof. apply translate_deletion. Qed.

(** ** The token sequence *)

Lemma tokenize_subseteq (text : str) (search_words : option (list str)) w :
  w ∈ tokenize text search_words -> w ∈ split (remove_punctuation text).
Proof.
  unfold tokenize. destruct search_words as [[|v V]|]; try done.
  by intros [_ ?]%list_elem_of_filter.
Qed.

Lemma tokenize_search_words (text : str) (V : list str) w :
  V <> [] ->
  w ∈ tokenize text (Some V) <-> w ∈ split (remove_punctuation text) /\ w ∈ V.
Proof.
  intros HV. unfold tokenize. destruct V as [|v V]; [done|].
  rewrite list_elem_of_filter. tauto.
Qed.

Lemma tokenize_empty_text (search_words : option (list str)) :
  tokenize [] search_words = [].
Proof. by destruct search_words as [[|v V]|]. Qed.

(** C6 (punctuation stripping).  [remove_punctuation] deletes exactly the
    characters of [string.punctuation] and keeps the others in place; the
    words are obtained by splitting what is left, so no word holds a
    punctuation character.  On ["a, b. a! b?"] the table is
    [{"a": 2, "b": 2}]. *)
Theorem punctuation_stripping :
  (forall text, remove_punctuation text =
                filter (fun c => c ∉ punctuation) text) /\
  (forall text, tokenize text None = split (remove_punctuation text)) /\
  (forall text search_words w c,
     w ∈ tokenize text search_words -> c ∈ w -> c ∉ punctuation) /\
  map_reduce (lit "a, b. a! b?") None = [(lit "a", 2); (lit "b", 2)].
Proof.
  split_and!.
  - apply remove_punctuation_filter.
  - done.
  - intros text sw w c Hw Hc.
    apply tokenize_subseteq in Hw.
    pose proof (split_chars _ _ _ Hw Hc) as Hin.
    rewrite remove_punctuation_filter in Hin.
    by apply list_elem_of_filter in Hin as [? _].
  - by vm_compute.
Qed.

Lemma punctuation_stripping_witness :
  N_of_ascii "a" ∉ punctuation.
Proof.
  apply (proj1 (proj2 (proj2 punctuation_stripping))
           (lit "a, b.") None (lit "a") (N_of_ascii "a")).
  - vm_compute. left.
  - vm_compute. left.
Defined.

Lemma split_from_concat (cur s : str) :
  concat (split_from cur s) =
  rev cur ++ filter (fun c => isspace c = false) s.
Proof.
  revert cur. induction s as [|c s IH]; intros cur.
  - simpl. destruct cur; simpl; by rewrite ?app_nil_r.
  - simpl split_from. destruct (isspace c) eqn:Hc.
    + rewrite filter_cons_False by congruence.
      destruct cur as [|c0 cur]; [apply IH|].
      change (concat (rev (c0 :: cur) :: split_from [] s))
        with (rev (c0 :: cur) ++ concat (split_from [] s)).
      by rewrite IH.
    + rewrite filter_cons_True by done.
      rewrite IH. simpl. by rewrite <- app_assoc.
Qed.

(** C5 (no case folding).  The words are made of the characters of the
    text as they are: put end to end, the words of a text are its
    characters without the punctuation and the white space, none of them
    changed, and a vocabulary only leaves words out.  Words are counted
    under exact equality of strings: the count stored for a key is the
    number of words of the filtered sequence equal to it, character by
    character, and no other key is stored.  On ["the Quick fox the FOX"]
    the table is [{"the": 2, "Quick": 1, "fox": 1, "FOX": 1}]. *)
Theorem no_case_folding :
  (forall text,
     concat (tokenize text None) =
     filter (fun c => isspace c = false)
       (filter (fun c => c ∉ punctuation) text)) /\
  (forall text search_words,
     tokenize text search_words `sublist_of` tokenize text None) /\
  (forall text search_words w,
     dict_get w (map_reduce text search_words) =
     if decide (w ∈ tokenize text search_words)
     then Some (occurrences w (tokenize text search_words))
     else None) /\
  map_reduce (lit "the Quick fox the FOX") None =
  [(lit "the", 2); (lit "Quick", 1); (lit "fox", 1); (lit "FOX", 1)].
Proof.
  split_and!.
  - intros text. unfold tokenize, split.
    by rewrite split_from_concat, remove_punctuation_filter.
  - intros text sw. unfold tokenize.
    destruct sw as [[|v V]|]; try done. apply sublist_filter.
  - intros text sw w. apply count_words_get.
  - by vm_compute.
Qed.

(** C7 (an empty result is a success).  [map_reduce] is a total function;
    on the empty text, and on every text whose words are all removed by
    the vocabulary filter, it returns the empty table. *)
Theorem empty_input_result :
  (forall search_words, map_reduce [] search_words = []) /\
  (forall text search_words,
     tokenize text search_words = [] -> map_reduce text search_words = []) /\
  (forall text V,
     V <> [] ->
     (forall w, w ∈ split (remove_punctuation text) -> w ∉ V) ->
     map_reduce text (Some V) = []).
Proof.
  split_and!.
  - intros sw. rewrite map_reduce_stages. by rewrite tokenize_empty_text.
  - intros text sw Hnil. rewrite map_reduce_stages. by rewrite Hnil.
  - intros text V HV Hall. rewrite map_reduce_stages.
    assert (Hnil : tokenize text (Some V) = []); [|by rewrite Hnil].
    apply elem_of_nil_inv. intros w Hw.
    apply tokenize_search_words in Hw as [Hw HwV]; [|done].
    by apply (Hall w).
Qed.

Lemma empty_input_result_witness :
  map_reduce (lit "the quick, brown dog") (Some [lit "fox"]) = [].
Proof.
  apply (proj2 (proj2 empty_input_result)); [done|].
  intros w Hw ->%list_elem_of_singleton.
  refine (bool_decide_eq_false_1 _ _ Hw). by vm_compute.
Defined.

(** C8 (well-formed table).  The keys of the table returned by
    [map_reduce] are pairwise distinct, no key is the empty string and
    every count is at least 1. *)
Theorem table_well_formed (text : str) (search_words : option (list str)) :
  NoDup (keys (map_reduce text search_words)) /\
  (forall k, k ∈ keys (map_reduce text search_words) -> k <> []) /\
  (forall k n, (k, n) ∈ items (map_reduce text search_words) -> 1 <= n).
Proof.
  rewrite map_reduce_stages. split_and!.
  - apply count_words_NoDup.
  - intros k Hk. apply (proj1 (count_words_keys _ _)) in Hk.
    eapply split_nonempty, tokenize_subseteq, Hk.
  - intros k n Hin. unfold items in Hin.
    apply elem_of_dict_get in Hin; [|apply count_words_NoDup].
    rewrite count_words_get in Hin.
    case_decide; [|done]. simplify_eq. by apply occurrences_pos.
Qed.

Lemma table_well_formed_witness : 1 <= 2.
Proof.
  apply (proj2 (proj2 (table_well_formed (lit "to be, or not to be") None))
           (lit "to") 2).
  vm_compute. left.
Defined.

(** ** The vocabulary filter *)

Lemma key_set_map_reduce (text : str) (search_words : option (list str)) :
  key_set (map_reduce text search_words) =
  list_to_set (tokenize text search_words).
Proof.
  apply set_eq. intros k. unfold key_set. rewrite map_reduce_stages.
  by rewrite !elem_of_list_to_set, count_words_keys.
Qed.

(** C3, as the code has it.  With a vocabulary [V] that is not empty, the
    keys of the table are exactly the words of the text that are equal to
    an entry of [V]; with an empty [V] no filter is applied and the keys
    are all the words of the text. *)
Theorem vocabulary_filter_keys (text : str) (V : list str) :
  (V <> [] ->
   key_set (map_reduce text (Some V)) =
   list_to_set (split (remove_punctuation text)) ∩ list_to_set V) /\
  key_set (map_reduce text (Some [])) =
  list_to_set (split (remove_punctuation text)).
Proof.
  split.
  - intros HV. rewrite key_set_map_reduce. apply set_eq. intros k.
    rewrite elem_of_intersection, !elem_of_list_to_set.
    by apply tokenize_search_words.
  - by rewrite key_set_map_reduce.
Qed.

Lemma vocabulary_filter_keys_witness :
  key_set (map_reduce (lit "the quick fox jumps") (Some [lit "fox"])) =
  list_to_set (split (remove_punctuation (lit "the quick fox jumps")))
  ∩ list_to_set [lit "fox"].
Proof.
  apply (proj1 (vocabulary_filter_keys (lit "the quick fox jumps")
                  [lit "fox"])).
  discriminate.
Defined.

(** C3 as stated fails for the empty vocabulary: on the text ["a"] the
    table has the key ["a"], which is not in the empty intersection. *)
Lemma vocabulary_filter_empty_counterexample :
  key_set (map_reduce (lit "a") (Some [])) <>
  list_to_set (split (remove_punctuation (lit "a"))) ∩ list_to_set [].
Proof.
  intros Heq.
  assert (Hin : lit "a" ∈ key_set (map_reduce (lit "a") (Some []))).
  { unfold key_set. apply elem_of_list_to_set. vm_compute. left. }
  rewrite Heq, elem_of_intersection, !elem_of_list_to_set in Hin.
  destruct Hin as [_ Hin]. by apply elem_of_nil in Hin.
Qed.

(** ** Sorting by count and taking a prefix *)

Section Sorting.
Context {A : Type} (key : A -> Z).
Implicit Types (x : A) (l : list A).
Local Abbreviation desc := (desc key).

Lemma insert_desc_Permutation x l : insert_desc key x l ≡ₚ x :: l.
Proof.
  induction l as [|y l IH]; simpl; [done|].
  destruct (key x <? key y); [|done].
  rewrite IH. apply perm_swap.
Qed.

Lemma sorted_reverse_Permutation l : sorted_reverse key l ≡ₚ l.
Proof.
  induction l as [|x l IH]; simpl; [done|].
  by rewrite insert_desc_Permutation, IH.
Qed.

Lemma insert_desc_sorted x l :
  StronglySorted desc l -> StronglySorted desc (insert_desc key x l).
Proof.
  induction 1 as [|y l Hs IH Hall]; simpl.
  - repeat constructor.
  - destruct (key x <? key y) eqn:Hlt.
    + apply Z.ltb_lt in Hlt. constructor; [done|].
      rewrite insert_desc_Permutation. constructor; [unfold desc; lia | done].
    + apply Z.ltb_ge in Hlt. constructor; [by constructor|].
      constructor; [done|].
      eapply Forall_impl; [exact Hall|]. unfold desc. intros; lia.
Qed.

Lemma sorted_reverse_sorted l : StronglySorted desc (sorted_reverse key l).
Proof.
  induction l as [|x l IH]; simpl; [constructor | by apply insert_desc_sorted].
Qed.

(** Elements with the same key keep their order: the sort is stable. *)
Lemma insert_desc_stable (v : Z) x l :
  StronglySorted desc l ->
  filter (fun y => key y = v) (insert_desc key x l) =
  filter (fun y => key y = v) (x :: l).
Proof.
  induction 1 as [|y l Hs IH Hall]; simpl; [done|].
  destruct (key x <? key y) eqn:Hlt; [|done].
  apply Z.ltb_lt in Hlt.
  rewrite (filter_cons _ y), IH, !(filter_cons _ x), (filter_cons _ y).
  repeat case_decide; try done; lia.
Qed.

Lemma sorted_reverse_stable (v : Z) l :
  filter (fun y => key y = v) (sorted_reverse key l) =
  filter (fun y => key y = v) l.
Proof.
  induction l as [|x l IH]; simpl; [done|].
  rewrite insert_desc_stable by apply sorted_reverse_sorted.
  by rewrite !filter_cons, IH.
Qed.

Lemma slice_to_take (k : Z) l : exists n, slice_to k l = take n l.
Proof. unfold slice_to. destruct (0 <=? k); eauto. Qed.

Lemma take_sorted n l : StronglySorted desc l -> StronglySorted desc (take n l).
Proof.
  intros Hs. rewrite <- (take_drop n l) in Hs.
  by apply StronglySorted_app_1_l in Hs.
Qed.

(** A prefix of a list sorted by decreasing key holds every element
    whose key is larger than the key of one of its elements. *)
Lemma take_sorted_complete n l x y :
  StronglySorted desc l ->
  x ∈ l -> y ∈ take n l -> key y < key x -> x ∈ take n l.
Proof.
  intros Hs Hx Hy Hlt.
  rewrite <- (take_drop n l) in Hx, Hs.
  apply elem_of_app in Hx as [Hx|Hx]; [done|]. exfalso.
  pose proof (StronglySorted_app_1_elem_of _ _ _ _ _ Hs Hy Hx) as Hd.
  unfold desc in Hd. lia.
Qed.
End Sorting.

(** C9 (top-K extraction).  [visualize_top_words] sorts the entries of the
    table by decreasing count and slices the sorted list at
    [num_top_words]: for a number that is not negative these are its first
    [num_top_words] entries.  The words and the frequencies that are
    plotted are read off the extracted entries.  Whatever the number, the
    extracted list is sorted by decreasing count, holds entries of the
    table only, and holds every entry of the table whose count is larger
    than the count of one of its entries. *)
Theorem top_k_extraction (word_frequencies : dict str Z) (num_top_words : Z) :
  let sorted := sorted_frequencies word_frequencies in
  let top := top_entries word_frequencies num_top_words in
  sorted ≡ₚ items word_frequencies /\
  StronglySorted (desc snd) sorted /\
  (0 <= num_top_words -> top = take (Z.to_nat num_top_words) sorted) /\
  top_words word_frequencies num_top_words = map fst top /\
  top_frequencies word_frequencies num_top_words = map snd top /\
  StronglySorted (desc snd) top /\
  (forall e, e ∈ top -> e ∈ items word_frequencies) /\
  (forall e m, e ∈ items word_frequencies -> m ∈ top -> m.2 < e.2 -> e ∈ top).
Proof.
  intros sorted top.
  assert (Hperm : sorted ≡ₚ items word_frequencies)
    by apply sorted_reverse_Permutation.
  assert (Hsorted : StronglySorted (desc snd) sorted)
    by apply sorted_reverse_sorted.
  destruct (slice_to_take num_top_words sorted) as [n Hn].
  change (top = take n sorted) in Hn.
  split_and!; try done.
  - intros Hk. subst top. unfold top_entries, slice_to.
    by rewrite (proj2 (Z.leb_le 0 num_top_words) Hk).
  - rewrite Hn. by apply take_sorted.
  - intros e He. rewrite <- Hperm. rewrite Hn in He.
    by apply (subseteq_take n sorted).
  - intros e m He Hm Hlt. rewrite Hn in Hm |- *.
    rewrite <- Hperm in He. by apply (take_sorted_complete snd n sorted e m).
Qed.

Lemma top_k_extraction_witness :
  top_entries (map_reduce (lit "b a a c c d d d") None) 2 =
  take 2 (sorted_frequencies (map_reduce (lit "b a a c c d d d") None)) /\
  (lit "d", 3) ∈ top_entries (map_reduce (lit "b a a c c d d d") None) 2.
Proof.
  pose proof (top_k_extraction (map_reduce (lit "b a a c c d d d") None) 2)
    as (_ & _ & Htake & _ & _ & _ & _ & Hall).
  split.
  - apply Htake. lia.
  - apply (Hall (lit "d", 3) (lit "a", 2)).
    + vm_compute. do 3 right. left.
    + vm_compute. right. left.
    + simpl. lia.
Defined.

(** ** The shuffle and reduce stages on arbitrary pairs *)

(** The entry of a key holds the values of its pairs, in the order of the
    pairs; a key without pair has no entry. *)
Theorem shuffle_groups_values (k : str) (l : list (str * Z)) :
  dict_get k (shuffle_function l) =
  if decide (k ∈ map fst l) then Some (values_of k l) else None.
Proof.
  rewrite shuffle_get.
  pose proof (values_of_nil_iff k l) as Hnil.
  destruct (values_of k l) as [|v vs].
  - rewrite decide_False; [done | by apply Hnil].
  - rewrite decide_True; [done|].
    destruct (decide (k ∈ map fst l)) as [|Hn]; [done|]. by apply Hnil in Hn.
Qed.

Lemma shuffle_step_values (d : dict str (list Z)) (k : str) (v : Z) :
  flat_map snd (dict_set k (default [] (dict_get k d) ++ [v]) d)
  ≡ₚ v :: flat_map snd d.
Proof.
  induction d as [|[k0 vs0] d IH]; simpl; [done|].
  destruct (decide (k = k0)) as [->|Hne]; simpl.
  - rewrite <- app_assoc. simpl. by rewrite <- Permutation_middle.
  - rewrite IH. by rewrite <- Permutation_middle.
Qed.

Lemma shuffle_fold_values (l : list (str * Z)) (d : dict str (list Z)) :
  flat_map snd (fold_left shuffle_step l d) ≡ₚ flat_map snd d ++ map snd l.
Proof.
  revert d. induction l as [|[k v] l IH]; intros d; simpl.
  - by rewrite app_nil_r.
  - rewrite IH. unfold shuffle_step at 1. simpl.
    rewrite shuffle_step_values. by rewrite <- Permutation_middle.
Qed.

(** Shuffling neither drops nor duplicates a value: the groups, put end
    to end, hold the values of the pairs. *)
Theorem shuffle_keeps_values (l : list (str * Z)) :
  flat_map snd (shuffle_function l) ≡ₚ map snd l.
Proof. unfold shuffle_function, items. by rewrite shuffle_fold_values. Qed.

(** Shuffling and reducing pairs with arbitrary integer values stores,
    for every key, the sum of the values paired with it. *)
Theorem reduce_shuffle_sums (k : str) (l : list (str * Z)) :
  dict_get k (reduce_stage (shuffle_function l)) =
  if decide (k ∈ map fst l) then Some (sum (values_of k l)) else None.
Proof.
  rewrite reduce_stage_NoDup by apply shuffle_NoDup.
  rewrite reduce_get, shuffle_get.
  pose proof (values_of_nil_iff k l) as Hnil.
  destruct (values_of k l) as [|v vs].
  - rewrite decide_False; [done | by apply Hnil].
  - rewrite decide_True; [done|].
    destruct (decide (k ∈ map fst l)) as [|Hn]; [done|]. by apply Hnil in Hn.
Qed.

(** The reduced counts add up to the sum of all the mapped values. *)
Theorem reduce_shuffle_total (l : list (str * Z)) :
  total (reduce_stage (shuffle_function l)) = sum (map snd l).
Proof.
  rewrite reduce_stage_NoDup by apply shuffle_NoDup.
  by rewrite reduce_total, shuffle_total.
Qed.

(** ** The order of the keys *)

Lemma filter_all {A} (P : A -> Prop) `{!forall x, Decision (P x)} (l : list A) :
  (forall x, x ∈ l -> P x) -> filter P l = l.
Proof.
  induction l as [|x l IH]; intros Hall; [done|].
  rewrite filter_cons_True by (apply Hall; left).
  rewrite IH; [done|]. intros y Hy. apply Hall. by right.
Qed.

Lemma filter_none {A} (P : A -> Prop) `{!forall x, Decision (P x)} (l : list A) :
  (forall x, x ∈ l -> ~ P x) -> filter P l = [].
Proof.
  induction l as [|x l IH]; intros Hall; [done|].
  rewrite filter_cons_False by (apply Hall; left).
  apply IH. intros y Hy. apply Hall. by right.
Qed.

Lemma filter_first_seen_known (ks : list str) (k : str) (l : list str) :
  k ∈ ks ->
  filter (fun x => x ∉ ks) (filter (fun y => y <> k) l) =
  filter (fun x => x ∉ ks) l.
Proof.
  intros Hk. rewrite list_filter_filter. apply list_filter_iff.
  intros x. split; [tauto|]. intros Hx. split; [done|]. by intros ->.
Qed.

Lemma filter_first_seen_new (ks : list str) (k : str) (l : list str) :
  filter (fun x => x ∉ ks ++ [k]) l =
  filter (fun x => x ∉ ks) (filter (fun y => y <> k) l).
Proof.
  rewrite list_filter_filter. apply list_filter_iff.
  intros x. rewrite not_elem_of_app, list_elem_of_singleton. tauto.
Qed.

Lemma shuffle_fold_key_order
  (l : list (str * Z)) (d : dict str (list Z)) (ks : list str) :
  keys d = ks ->
  keys (fold_left shuffle_step l d) =
  ks ++ filter (fun x => x ∉ ks) (first_seen (map fst l)).
Proof.
  revert d ks. induction l as [|[k v] l IH]; intros d ks Hks; simpl.
  - by rewrite app_nil_r.
  - pose proof (keys_dict_set k (default [] (dict_get k d) ++ [v]) d) as Hk.
    rewrite Hks in Hk. rewrite filter_cons.
    destruct (decide (k ∈ ks)) as [Hin|Hin].
    + rewrite (IH _ ks) by exact Hk.
      rewrite decide_False by tauto.
      by rewrite filter_first_seen_known.
    + rewrite (IH _ (ks ++ [k])) by exact Hk.
      rewrite decide_True by done.
      rewrite filter_first_seen_new, <- app_assoc. done.
Qed.

(** The keys of the returned table are the words of the filtered
    sequence, each once, in the order in which they first occur. *)
Lemma map_reduce_key_order (text : str) (search_words : option (list str)) :
  keys (map_reduce text search_words) =
  first_seen (tokenize text search_words).
Proof.
  rewrite map_reduce_stages, count_words_eq, reduce_keys.
  unfold shuffle_function, items.
  rewrite (shuffle_fold_key_order _ [] []) by done.
  rewrite map_function_fst. simpl. apply filter_all.
  intros x _. apply not_elem_of_nil.
Qed.

(** ** Counts *)

Lemma occurrences_absent (w : str) (words : list str) :
  w ∉ words -> occurrences w words = 0.
Proof.
  intros Hn. unfold occurrences.
  destruct (filter (fun x => x = w) words) as [|x l] eqn:Hf; [done|].
  assert (Hx : x ∈ filter (fun x => x = w) words) by (rewrite Hf; left).
  apply list_elem_of_filter in Hx as [-> Hx]. done.
Qed.

Lemma occurrences_app (w : str) (l1 l2 : list str) :
  occurrences w (l1 ++ l2) = occurrences w l1 + occurrences w l2.
Proof. unfold occurrences. rewrite filter_app, length_app. lia. Qed.

Lemma count_of_count_words (w : str) (words : list str) :
  count_of w (count_words words) = occurrences w words.
Proof.
  unfold count_of. rewrite count_words_get.
  case_decide; simpl; [done|]. by rewrite occurrences_absent.
Qed.

Lemma occurrences_filter (w : str) (V words : list str) :
  occurrences w (filter (fun x => x ∈ V) words) =
  if decide (w ∈ V) then occurrences w words else 0.
Proof.
  unfold occurrences. rewrite list_filter_filter.
  case_decide as Hw.
  - f_equal. f_equal. apply list_filter_iff. intros x. split; [tauto|].
    intros ->. done.
  - rewrite (filter_none (fun x => x = w ∧ x ∈ V)); [done|].
    intros x _ [-> ?]. done.
Qed.

(** A vocabulary that is not empty restricts the table of the unfiltered
    run: a word of the vocabulary keeps its entry and its count, any other
    word has no entry. *)
Theorem vocabulary_restricts_table (text : str) (V : list str) (w : str) :
  V <> [] ->
  dict_get w (map_reduce text (Some V)) =
  if decide (w ∈ V) then dict_get w (map_reduce text None) else None.
Proof.
  intros HV. rewrite !map_reduce_stages, !count_words_get.
  pose proof (tokenize_search_words text V w HV) as Hiff.
  change (tokenize text None) with (split (remove_punctuation text)).
  assert (Htok : tokenize text (Some V) =
                 filter (fun x => x ∈ V) (split (remove_punctuation text))).
  { unfold tokenize. by destruct V. }
  destruct (decide (w ∈ V)) as [HwV|HwV].
  - destruct (decide (w ∈ split (remove_punctuation text))) as [Hw|Hw].
    + rewrite decide_True by tauto.
      rewrite Htok, occurrences_filter. by rewrite decide_True.
    + rewrite decide_False by tauto. done.
  - rewrite decide_False by tauto. done.
Qed.

Lemma vocabulary_restricts_table_witness :
  dict_get (lit "the")
    (map_reduce (lit "the fox, the dog") (Some [lit "the"; lit "cat"])) =
  if decide (lit "the" ∈ [lit "the"; lit "cat"])
  then dict_get (lit "the") (map_reduce (lit "the fox, the dog") None)
  else None.
Proof.
  apply (vocabulary_restricts_table (lit "the fox, the dog")
           [lit "the"; lit "cat"] (lit "the")).
  discriminate.
Defined.

(** ** Texts put together *)

Lemma punctuation_not_space : Forall (fun c => isspace c = false) punctuation.
Proof. by apply (bool_decide_unpack _). Qed.

Lemma isspace_not_punctuation (c : char) :
  isspace c = true -> c ∉ punctuation.
Proof.
  intros Hc Hin. pose proof punctuation_not_space as Hall.
  rewrite Forall_forall in Hall. specialize (Hall c Hin). congruence.
Qed.

Lemma split_from_app (cur s1 s2 : str) (c : char) :
  isspace c = true ->
  split_from cur (s1 ++ c :: s2) = split_from cur s1 ++ split s2.
Proof.
  intros Hc. revert cur. induction s1 as [|c1 s1 IH]; intros cur; simpl.
  - rewrite Hc. by destruct cur.
  - destruct (isspace c1); [|apply IH].
    destruct cur; simpl; by rewrite IH.
Qed.

Lemma tokenize_app (t1 t2 : str) (c : char) (sw : option (list str)) :
  isspace c = true ->
  tokenize (t1 ++ c :: t2) sw = tokenize t1 sw ++ tokenize t2 sw.
Proof.
  intros Hc.
  assert (Hsplit : split (remove_punctuation (t1 ++ c :: t2)) =
                   split (remove_punctuation t1) ++
                   split (remove_punctuation t2)).
  { rewrite !remove_punctuation_filter, filter_app.
    rewrite filter_cons_True by by apply isspace_not_punctuation.
    by apply split_from_app. }
  unfold tokenize. rewrite Hsplit.
  destruct sw as [[|v V]|]; try done. by rewrite filter_app.
Qed.

(** Counting two texts joined by a white space character adds up the
    counts of the two texts, word by word, with or without vocabulary. *)
Theorem map_reduce_joined_texts
  (t1 t2 : str) (c : char) (search_words : option (list str)) (w : str) :
  isspace c = true ->
  count_of w (map_reduce (t1 ++ c :: t2) search_words) =
  count_of w (map_reduce t1 search_words) +
  count_of w (map_reduce t2 search_words).
Proof.
  intros Hc. rewrite !map_reduce_stages, !count_of_count_words.
  by rewrite tokenize_app, occurrences_app.
Qed.

Lemma map_reduce_joined_texts_witness :
  count_of (lit "to") (map_reduce (lit "to be," ++ 10%N :: lit "or not to") None)
  = count_of (lit "to") (map_reduce (lit "to be,") None) +
    count_of (lit "to") (map_reduce (lit "or not to") None).
Proof.
  apply (map_reduce_joined_texts (lit "to be,") (lit "or not to") 10%N).
  reflexivity.
Defined.

(** ** More on punctuation and white space *)

(** Stripping punctuation twice is the same as stripping it once. *)
Theorem remove_punctuation_idempotent (text : str) :
  remove_punctuation (remove_punctuation text) = remove_punctuation text.
Proof.
  rewrite !remove_punctuation_filter. apply list_filter_filter_l. done.
Qed.

(** A text that holds no punctuation character is returned as it is. *)
Theorem remove_punctuation_clean (text : str) :
  (forall c, c ∈ text -> c ∉ punctuation) -> remove_punctuation text = text.
Proof. intros Hall. rewrite remove_punctuation_filter. by apply filter_all. Qed.

Lemma remove_punctuation_clean_witness :
  remove_punctuation (lit "ab c") = lit "ab c".
Proof.
  apply remove_punctuation_clean. intros c Hc.
  refine (bool_decide_eq_false_1 _ _).
  revert c Hc. apply Forall_forall. by apply (bool_decide_unpack _).
Defined.

Lemma split_from_no_space (cur s : str) :
  Forall (fun c => isspace c = false) cur ->
  Forall (Forall (fun c => isspace c = false)) (split_from cur s).
Proof.
  revert cur. induction s as [|c s IH]; intros cur Hcur; simpl.
  - destruct cur as [|c0 cur]; [constructor|].
    constructor; [|constructor]. by apply Forall_rev.
  - destruct (isspace c) eqn:Hc.
    + destruct cur as [|c0 cur]; [by apply IH|].
      constructor; [by apply Forall_rev | by apply IH].
    + apply IH. by constructor.
Qed.

(** No key of the returned table holds a white space character. *)
Theorem keys_without_space
  (text : str) (search_words : option (list str)) (k : str) (c : char) :
  k ∈ keys (map_reduce text search_words) -> c ∈ k -> isspace c = false.
Proof.
  rewrite map_reduce_stages, count_words_keys. intros Hk Hc.
  apply tokenize_subseteq in Hk.
  pose proof (split_from_no_space [] (remove_punctuation text)
                ltac:(constructor)) as Hall.
  rewrite Forall_forall in Hall. specialize (Hall k Hk).
  rewrite Forall_forall in Hall. by apply Hall.
Qed.

Lemma keys_without_space_witness : isspace (N_of_ascii "b") = false.
Proof.
  apply (keys_without_space (lit "a  be") None (lit "be")).
  - vm_compute. right. left.
  - vm_compute. left.
Defined.

(** ** The returned table, entry by entry *)

Lemma dict_as_keys {V} (f : str -> V) (d : dict str V) :
  (forall k v, (k, v) ∈ d -> v = f k) ->
  d = map (fun k => (k, f k)) (keys d).
Proof.
  induction d as [|[k v] d IH]; intros Hall; [done|].
  simpl. rewrite (Hall k v) by left. f_equal.
  apply IH. intros k' v' Hin. apply Hall. by right.
Qed.

Lemma map_reduce_entries (text : str) (search_words : option (list str)) :
  map_reduce text search_words =
  map (fun w => (w, occurrences w (tokenize text search_words)))
      (first_seen (tokenize text search_words)).
Proof.
  rewrite <- map_reduce_key_order. apply dict_as_keys.
  intros k v Hin. rewrite map_reduce_stages in Hin.
  apply elem_of_dict_get in Hin; [|apply count_words_NoDup].
  rewrite count_words_get in Hin. case_decide; congruence.
Qed.

(** The table returned by [map_reduce] lists every distinct word of the
    filtered sequence once, in the order of first occurrence, with the
    number of its occurrences. *)
Theorem map_reduce_table (text : str) (search_words : option (list str)) :
  map_reduce text search_words =
  map (fun w => (w, occurrences w (tokenize text search_words)))
      (first_seen (tokenize text search_words)).
Proof. apply map_reduce_entries. Qed.

(** ** More on the top-K selection *)

Lemma top_entries_size (word_frequencies : dict str Z) (num_top_words : Z) :
  Z.of_nat (length (top_entries word_frequencies num_top_words)) =
  if 0 <=? num_top_words
  then Z.min num_top_words (Z.of_nat (length word_frequencies))
  else Z.max 0 (Z.of_nat (length word_frequencies) + num_top_words).
Proof.
  unfold top_entries, slice_to.
  assert (Hlen : length (sorted_frequencies word_frequencies) =
                 length word_frequencies).
  { apply Permutation_length, sorted_reverse_Permutation. }
  destruct (0 <=? num_top_words) eqn:Hk; rewrite length_take, Hlen.
  - apply Z.leb_le in Hk. lia.
  - apply Z.leb_gt in Hk. lia.
Qed.

(** The number of extracted entries: [num_top_words] capped by the size of
    the table, or the size less [-num_top_words] (not below 0) when
    [num_top_words] is negative. *)
Theorem top_entries_length (word_frequencies : dict str Z) (num_top_words : Z) :
  Z.of_nat (length (top_entries word_frequencies num_top_words)) =
  if 0 <=? num_top_words
  then Z.min num_top_words (Z.of_nat (length word_frequencies))
  else Z.max 0 (Z.of_nat (length word_frequencies) + num_top_words).
Proof. apply top_entries_size. Qed.

(** The first extracted entry has the largest count of the table. *)
Theorem top_entries_head_max
  (word_frequencies : dict str Z) (num_top_words : Z)
  (e0 : str * Z) (rest : list (str * Z)) :
  top_entries word_frequencies num_top_words = e0 :: rest ->
  forall e, e ∈ items word_frequencies -> e.2 <= e0.2.
Proof.
  intros Htop e He.
  destruct (slice_to_take num_top_words (sorted_frequencies word_frequencies))
    as [n Hn].
  unfold top_entries in Htop. rewrite Hn in Htop.
  pose proof (sorted_reverse_sorted snd (items word_frequencies)) as Hs.
  pose proof (sorted_reverse_Permutation snd (items word_frequencies)) as Hp.
  fold (sorted_frequencies word_frequencies) in Hs, Hp.
  rewrite <- Hp in He.
  destruct (sorted_frequencies word_frequencies) as [|e1 l]; [by destruct n|].
  destruct n as [|n]; [done|]. simpl in Htop. injection Htop as -> _.
  apply StronglySorted_inv in Hs as [_ Hall].
  apply elem_of_cons in He as [->|He]; [done|].
  rewrite Forall_forall in Hall. by apply Hall.
Qed.

Lemma top_entries_head_max_witness : (lit "b", 1).2 <= (lit "a", 2).2.
Proof.
  apply (top_entries_head_max (map_reduce (lit "b a a") None) 1
           (lit "a", 2) []).
  - reflexivity.
  - vm_compute. left.
Defined.

(** Sorting keeps the entries that have the same count in the order they
    have in the table. *)
Theorem sorted_frequencies_ties (word_frequencies : dict str Z) (v : Z) :
  filter (fun e => e.2 = v) (sorted_frequencies word_frequencies) =
  filter (fun e => e.2 = v) (items word_frequencies).
Proof. apply sorted_reverse_stable. Qed.

Lemma filter_map_entries (f : str -> Z) (v : Z) (l : list str) :
  filter (fun e : str * Z => e.2 = v) (map (fun w => (w, f w)) l) =
  map (fun w => (w, f w)) (filter (fun w => f w = v) l).
Proof.
  induction l as [|x l IH]; [done|].
  simpl map. rewrite !filter_cons, IH. simpl. by case_decide.
Qed.

(** For the table of a text, words with the same count come out of the
    sort in the order in which they first occur in the text. *)
Theorem sorted_frequencies_ties_first_seen
  (text : str) (search_words : option (list str)) (v : Z) :
  map fst (filter (fun e => e.2 = v)
             (sorted_frequencies (map_reduce text search_words))) =
  filter (fun w => occurrences w (tokenize text search_words) = v)
         (first_seen (tokenize text search_words)).
Proof.
  unfold sorted_frequencies. rewrite sorted_reverse_stable. unfold items.
  rewrite map_reduce_entries, filter_map_entries.
  generalize (filter
    (fun w => occurrences w (tokenize text search_words) = v)
    (first_seen (tokenize text search_words))).
  intros l. induction l as [|x l IH]; simpl; congruence.
Qed.

(** ** The bars that are drawn *)

Example visualize_top_words_two :
  visualize_top_words [(lit "a", 3); (lit "b", 1)] 10 =
  ([lit "a"; lit "b"], [1; 3]).
Proof. reflexivity. Qed.

(** The labels handed to [plt.barh] are the extracted words, most
    frequent first, while the widths are the extracted counts in reverse:
    the bar at position [i] has the width of the entry at position
    [n - 1 - i], [n] being the number of extracted entries. *)
Theorem barh_widths_reversed
  (word_frequencies : dict str Z) (num_top_words : Z) (i : nat) :
  let top := top_entries word_frequencies num_top_words in
  let bars := visualize_top_words word_frequencies num_top_words in
  (i < length top)%nat ->
  bars.1 !! i = fst <$> top !! i /\
  bars.2 !! i = snd <$> top !! (length top - S i)%nat.
Proof.
  intros top bars Hi. unfold bars, visualize_top_words. simpl. split.
  - unfold top_words. apply list_lookup_fmap.
  - unfold top_frequencies. fold top.
    rewrite reverse_lookup by by rewrite length_map.
    rewrite length_map. apply list_lookup_fmap.
Qed.

Lemma barh_widths_reversed_witness :
  (visualize_top_words [(lit "a", 3); (lit "b", 1)] 10).1 !! 0%nat =
  fst <$> top_entries [(lit "a", 3); (lit "b", 1)] 10 !! 0%nat /\
  (visualize_top_words [(lit "a", 3); (lit "b", 1)] 10).2 !! 0%nat =
  snd <$> top_entries [(lit "a", 3); (lit "b", 1)] 10 !! 1%nat.
Proof.
  apply (barh_widths_reversed [(lit "a", 3); (lit "b", 1)] 10 0).
  vm_compute. lia.
Defined.

(** ** The main block *)

(** For a fetched text that is not empty the script draws a chart; it has
    as many labels as widths, namely one per distinct word of the text, 20
    at most. *)
Theorem main_chart_size (c : char) (text : str) :
  exists y width,
    main (Some (c :: text)) = Chart y width /\
    length y = length width /\
    Z.of_nat (length y) =
    Z.min 20 (Z.of_nat (length (first_seen (tokenize (c :: text) None)))).
Proof.
  exists (top_words (map_reduce (c :: text) None) 20),
         (reverse (top_frequencies (map_reduce (c :: text) None) 20)).
  split; [reflexivity|].
  unfold top_words, top_frequencies.
  rewrite length_reverse, !length_map. split; [done|].
  rewrite top_entries_size, <- map_reduce_key_order.
  unfold keys. rewrite length_map. reflexivity.
Qed.

(** ** Search words are compared as they are *)

Lemma tokenize_no_punctuation
  (text : str) (search_words : option (list str)) (w : str) (c : char) :
  w ∈ tokenize text search_words -> c ∈ w -> c ∉ punctuation.
Proof.
  intros Hw Hc. apply tokenize_subseteq in Hw.
  pose proof (split_chars _ _ _ Hw Hc) as Hin.
  rewrite remove_punctuation_filter in Hin.
  by apply list_elem_of_filter in Hin as [? _].
Qed.

(** The search words are not stripped: one that holds a punctuation
    character matches no word of any text and gets no entry. *)
Theorem search_word_with_punctuation_unmatched
  (text : str) (search_words : option (list str)) (w : str) (c : char) :
  c ∈ w -> c ∈ punctuation ->
  dict_get w (map_reduce text search_words) = None.
Proof.
  intros Hc Hp. rewrite map_reduce_stages, count_words_get.
  rewrite decide_False; [done|]. intros Hw.
  by apply (tokenize_no_punctuation text search_words w c).
Qed.

Lemma search_word_with_punctuation_unmatched_witness :
  dict_get (lit "fox,")
    (map_reduce (lit "the fox, the dog") (Some [lit "fox,"])) = None.
Proof.
  apply (search_word_with_punctuation_unmatched _ _ _ (N_of_ascii ",")).
  - vm_compute. do 3 right. left.
  - vm_compute. do 11 right. left.
Defined.
